(** * The Clue-Less autonomous player ([auto/automaton.py])

    A shallow embedding of the [Player] class of [auto.automaton] and the
    properties of its move selection, answer protocol and tracking pad.

    Python objects that the methods mutate in place are kept in an explicit
    state: the player instance ([self]), the payload handed to the method
    ([game_state]), the list objects of the interpreter ([heap]) and the
    pending draws of the [random] module ([rng]).  An exception leaves the
    state as it was at the raise, exactly as in Python. *)

From stdpp Require Import gmap strings list fin_maps.

#[local] Set Warnings "-clear-no-such-hyp".

Open Scope string_scope.
Open Scope nat_scope.

(** ** Exceptions *)

Inductive exn :=
  | IndexError (msg : string)
  | ValueError (msg : string)
  | KeyError (key : string).

(** The three conditions of the error taxonomy, as the source raises them. *)
Definition PlayerLimitExceeded : exn :=
  IndexError "no more than 5 computer players allowed".
Definition InvalidHandSize : exn :=
  IndexError "the number of cards dealt, must be between 3 and 6".
Definition UnrecognizedCard (card : string) : exn :=
  ValueError ("the card " ++ card ++ " is not valid").

Definition result (A : Type) : Type := exn + A.

Definition rbind {A B} (r : result A) (k : A → result B) : result B :=
  match r with
  | inl e => inl e
  | inr a => k a
  end.

(** The value of a result that is no exception. *)
Definition ok {A} (r : result A) : option A :=
  match r with
  | inl _ => None
  | inr a => Some a
  end.

Definition from_key {A} (key : string) (o : option A) : result A :=
  match o with
  | Some a => inr a
  | None => inl (KeyError key)
  end.

(** ** The tracking pad *)

(** Modelled from the spec: the class [auto.pad.Pad] is not part of the
    sources.  A pad holds one table per observed player; a table is keyed by
    card name and has the two tracking columns [c1] (a 0/1 flag) and [c2] (a
    set of round tokens).  [players_list] is the ordered collection of the
    tracked identities, which is also the order of the keys of [player_pad].
    Reading or writing a cell of a player or of a card that the pad does not
    hold raises [KeyError]. *)
Record row := Row { c1 : Z; c2 : gset nat }.

Record Pad := mkPad {
  players_list : list string;
  player_pad : gmap string (gmap string row)
}.

Definition get_player_table (pad : Pad) (player : string)
  : result (gmap string row) :=
  from_key player (player_pad pad !! player).

Definition set_player_table (pad : Pad) (player : string)
    (tbl : gmap string row) : Pad :=
  mkPad (players_list pad) (<[player := tbl]> (player_pad pad)).

(** [tbl.axes[0].tolist()]: the card names of a table. *)
Definition table_cards (tbl : gmap string row) : list string :=
  (map_to_list tbl).*1.

Definition read_c1 (tbl : gmap string row) (card : string) : result Z :=
  from_key card (c1 <$> tbl !! card).

Definition read_c2 (tbl : gmap string row) (card : string)
  : result (gset nat) :=
  from_key card (c2 <$> tbl !! card).

(** [tbl['c1'][card] = v] *)
Definition write_c1 (tbl : gmap string row) (card : string) (v : Z)
  : result (gmap string row) :=
  match tbl !! card with
  | Some r => inr (<[card := Row v (c2 r)]> tbl)
  | None => inl (KeyError card)
  end.

Definition write_c2 (tbl : gmap string row) (card : string) (s : gset nat)
  : result (gmap string row) :=
  match tbl !! card with
  | Some r => inr (<[card := Row (c1 r) s]> tbl)
  | None => inl (KeyError card)
  end.

(** The cells of a pad, for stating what an operation changes. *)
Definition cell (pad : Pad) (player card : string) : option row :=
  player_pad pad !! player ≫= (.!! card).

Definition suspects : list string :=
  ["Mustard"; "Scarlet"; "White"; "Plum"; "Green"; "Peacock"].
Definition weapons : list string :=
  ["Knife"; "Wrench"; "Revolver"; "Pipe"; "Rope"; "Candlestick"].
Definition rooms : list string :=
  ["Study"; "Hall"; "Lounge"; "Library"; "Billiard"; "Dining";
   "Conservatory"; "Ballroom"; "Kitchen"].
Definition deck : list string := suspects ++ weapons ++ rooms.

Definition player_ids : list string :=
  ["p01"; "p02"; "p03"; "p04"; "p05"; "p06"].

Definition blank_table : gmap string row :=
  list_to_map ((λ card, (card, Row 0 ∅)) <$> deck).

(** Modelled from the spec: [Pad(total_players)], absent from the sources,
    creates a blank table over the whole deck for each of the identities
    [p01] .. [p06] that take part. *)
Definition Pad_new (total_players : nat) : Pad :=
  let ids := take total_players player_ids in
  mkPad ids (list_to_map ((λ p, (p, blank_table)) <$> ids)).

(** ** The player instance and the interpreter state *)

Record Player := mkPlayer {
  _player_count : Z;
  _selected_suspect : string;
  _location : string;
  _prior_moves : gset string;
  _pad : Pad;
  _cards : list string;
  player_id : string
}.

(** The payload of [update] and [take_turn]: a dictionary of which the
    methods read the keys below; a key that is absent is [None].  The value of
    [cards] is a list object, which [_mark_pad] copies and pops: it is a
    reference into the heap. *)
Record Suggestion := mkSuggestion {
  to_player : option string;
  sg_cards : option (list string)
}.

Record Answer := mkAnswer {
  from_player : option string;
  has_card : option bool;
  an_card : option string
}.

Record GameState := mkGameState {
  gs_positions : option (gmap string string);
  gs_suggestion : option Suggestion;
  gs_answer : option Answer;
  gs_cards : option nat
}.

Record World := mkWorld {
  self : Player;
  game_state : GameState;
  heap : gmap nat (list string);
  rng : list nat
}.

Definition M (A : Type) : Type := World → result A * World.

#[global] Instance M_ret : MRet M := λ A a w, (inr a, w).
#[global] Instance M_bind : MBind M := λ A B k m w,
  match m w with
  | (inl e, w') => (inl e, w')
  | (inr a, w') => k a w'
  end.

Definition raise {A} (e : exn) : M A := λ w, (inl e, w).
Definition lift {A} (r : result A) : M A := λ w, (r, w).
Definition get_self : M Player := λ w, (inr (self w), w).
Definition get_game_state : M GameState := λ w, (inr (game_state w), w).
Definition put_self (p : Player) : M unit :=
  λ w, (inr (), mkWorld p (game_state w) (heap w) (rng w)).
Definition set_pad (pad : Pad) (p : Player) : Player :=
  mkPlayer (_player_count p) (_selected_suspect p) (_location p)
    (_prior_moves p) pad (_cards p) (player_id p).
Definition set_location (loc : string) (p : Player) : Player :=
  mkPlayer (_player_count p) (_selected_suspect p) loc
    (_prior_moves p) (_pad p) (_cards p) (player_id p).
Definition set_prior_moves (moves : gset string) (p : Player) : Player :=
  mkPlayer (_player_count p) (_selected_suspect p) (_location p)
    moves (_pad p) (_cards p) (player_id p).

Fixpoint for_each {A} (l : list A) (body : A → M unit) : M unit :=
  match l with
  | [] => mret ()
  | x :: rest => body x ;; for_each rest body
  end.

(** *** List objects *)

(** A reference held by a payload always points to an object of the heap;
    the branches for a reference without object only make the operations
    total. *)

(** [l.copy()]: a new list object with the same elements. *)
Definition list_copy (r : nat) : M nat := λ w,
  match heap w !! r with
  | Some l =>
      let r' := fresh (dom (heap w)) in
      (inr r', mkWorld (self w) (game_state w) (<[r' := l]> (heap w)) (rng w))
  | None => (inl (KeyError "dangling reference"), w)
  end.

(** [l.pop()]: removes the last element of the object and returns it. *)
Definition list_pop (r : nat) : M string := λ w,
  match heap w !! r with
  | Some l =>
      match last l with
      | Some x =>
          (inr x,
           mkWorld (self w) (game_state w) (<[r := removelast l]> (heap w))
             (rng w))
      | None => (inl (IndexError "pop from empty list"), w)
      end
  | None => (inl (KeyError "dangling reference"), w)
  end.

(** *** Cells of the pad of [self] *)

(** The table objects live in the pad of [self]; a write to a table that was
    fetched with [get_player_table] is a write to the pad. *)
Definition modify_table (player : string)
    (f : gmap string row → result (gmap string row)) : M unit :=
  me ← get_self;
  tbl ← lift (get_player_table (_pad me) player);
  tbl' ← lift (f tbl);
  put_self (set_pad (set_player_table (_pad me) player tbl') me).

Definition set_c1 (player card : string) (v : Z) : M unit :=
  modify_table player (λ tbl, write_c1 tbl card v).

Definition get_c2 (player card : string) : M (gset nat) :=
  me ← get_self;
  tbl ← lift (get_player_table (_pad me) player);
  lift (read_c2 tbl card).

(** [cell.add(entry)] on the set object of a [c2] cell. *)
Definition add_c2 (player card : string) (entry : nat) : M unit :=
  modify_table player (λ tbl,
    rbind (read_c2 tbl card) (λ s, write_c2 tbl card ({[entry]} ∪ s))).

(** [cell.clear()] on the set object of a [c2] cell. *)
Definition clear_c2 (player card : string) : M unit :=
  modify_table player (λ tbl,
    rbind (read_c2 tbl card) (λ _, write_c2 tbl card ∅)).

(** ** Card receipt *)

Definition _verify_card (card_to_verify : string) : M bool :=
  me ← get_self;
  mret (bool_decide (card_to_verify ∈ _cards me)).

Definition _mark_my_cards_on_pad (dealt_cards : list string) : M unit :=
  me ← get_self;
  _ ← lift (get_player_table (_pad me) (player_id me));
  for_each dealt_cards (λ card, set_c1 (player_id me) card 1).

(** The body of the validation loop of [receive_cards]. *)
Definition check_dealt (card : string) : M unit :=
  verified ← _verify_card card;
  if negb verified then raise (UnrecognizedCard card) else mret ().

Definition receive_cards (dealt_cards : list string) : M unit :=
  if negb ((3 <=? length dealt_cards)%nat
          && (length dealt_cards <=? 6)%nat)
  then raise InvalidHandSize
  else
    for_each dealt_cards check_dealt ;;
    _mark_my_cards_on_pad dealt_cards.

(** ** Answering a suggestion *)

(** [card in cards[cards == 1]] *)
Definition marked (tbl : gmap string row) (card : string) : bool :=
  match tbl !! card with
  | Some r => bool_decide (c1 r = 1%Z)
  | None => false
  end.

Fixpoint first_marked (tbl : gmap string row) (suggestion : list string)
  : string :=
  match suggestion with
  | [] => "no_match"
  | card :: rest =>
      if marked tbl card then card else first_marked tbl rest
  end.

Definition _answer (suggestion : list string) : M string :=
  me ← get_self;
  cards ← lift (get_player_table (_pad me) (player_id me));
  mret (first_marked cards suggestion).

(** ** Accusation analysis *)

(** The inner loop of [_get_unknown_cards] over the keys of the pad, for one
    card: [i] counts the tables seen so far in which the card is unmarked. *)
Fixpoint scan_tables (pad : Pad) (card : string) (keys : list string)
    (i : nat) (unverified_cards : gset string) : result (gset string) :=
  match keys with
  | [] => inr unverified_cards
  | key :: rest =>
      rbind (get_player_table pad key) (λ tbl,
      rbind (read_c1 tbl card) (λ v,
        if bool_decide (v = 1%Z) then inr unverified_cards
        else
          let i := S i in
          let unverified_cards :=
            if bool_decide (i = 4) then {[card]} ∪ unverified_cards
            else unverified_cards in
          scan_tables pad card rest i unverified_cards))
  end.

Fixpoint scan_cards (pad : Pad) (cards : list string)
    (unverified_cards : gset string) : result (gset string) :=
  match cards with
  | [] => inr unverified_cards
  | card :: rest =>
      rbind (scan_tables pad card (players_list pad) 0 unverified_cards)
        (scan_cards pad rest)
  end.

Definition _get_unknown_cards : M (gset string) :=
  me ← get_self;
  let pad := _pad me in
  tbl ← lift (get_player_table pad (player_id me));
  lift (scan_cards pad (table_cards tbl) ∅).

Definition _analyze_table_to_accuse : M (option (gset string)) :=
  me ← get_self;
  _ ← lift (get_player_table (_pad me) (player_id me));
  unverified_cards ← _get_unknown_cards;
  if bool_decide (size unverified_cards = 3)
  then mret (Some unverified_cards)
  else mret None.

(** ** Recording an answer *)

Definition _clear_c2_cells (card_provided : string) : M unit :=
  me ← get_self;
  for_each (players_list (_pad me)) (λ player, clear_c2 player card_provided).

Definition new_entry (cell01 cell02 cell03 : gset nat) : nat :=
  size (cell01 ∪ (cell02 ∪ cell03)) + 1.

Definition _mark_pad : M (option (gset string)) :=
  gs ← get_game_state;
  answer ← lift (from_key "answer" (gs_answer gs));
  responding_player ← lift (from_key "from_player" (from_player answer));
  me ← get_self;
  _ ← lift (get_player_table (_pad me) responding_player);
  match has_card answer with
  | Some true =>
      cards ← lift (from_key "cards" (gs_cards gs));
      suggestions ← list_copy cards;
      card01 ← list_pop suggestions;
      card02 ← list_pop suggestions;
      card03 ← list_pop suggestions;
      cell01 ← get_c2 responding_player card01;
      cell02 ← get_c2 responding_player card02;
      cell03 ← get_c2 responding_player card03;
      let entry := new_entry cell01 cell02 cell03 in
      add_c2 responding_player card01 entry ;;
      add_c2 responding_player card02 entry ;;
      add_c2 responding_player card03 entry
  | Some false => mret ()
  | None =>
      card_provided ← lift (from_key "card" (an_card answer));
      set_c1 responding_player card_provided 1 ;;
      _clear_c2_cells card_provided
  end ;;
  _analyze_table_to_accuse.

(** ** The update dispatcher *)

Inductive response :=
  | RCard (card : string)
  | RTurnComplete
  | RAccusation (from : string) (cards : gset string)
  | RNone.

(** [suggestion['to_player'] == self.player_id], when both keys exist. *)
Definition addressed (gs : GameState) (pid : string) : option Suggestion :=
  match gs_suggestion gs with
  | Some suggestion =>
      if bool_decide (to_player suggestion = Some pid)
      then Some suggestion else None
  | None => None
  end.

(** [not accusation] *)
Definition falsy (accusation : option (gset string)) : bool :=
  match accusation with
  | None => true
  | Some s => bool_decide (s = ∅)
  end.

(** The three tests of [update] in their order; the last one, on
    [make_move], holds no code, and the method then returns [None]. *)
Definition update : M response :=
  gs ← get_game_state;
  me ← get_self;
  match addressed gs (player_id me) with
  | Some suggestion =>
      cards ← lift (from_key "cards" (sg_cards suggestion));
      card ← _answer cards;
      mret (RCard card)
  | None =>
      match gs_answer gs with
      | Some _ =>
          accusation ← _mark_pad;
          if falsy accusation then mret RTurnComplete
          else mret (RAccusation (player_id me) (default ∅ accusation))
      | None => mret RNone
      end
  end.

(** ** Construction *)

(** The attributes of the class object [Player].  [_board] is the board
    topology, a parameter of the move selection below. *)
Record ClassAttrs := mkClass { class_player_count : Z }.

(** [random.choice(seq)] and [random.sample(population, 1)[0]]: the element at
    the index that the next draw selects. *)
Definition draw_index (rng : list nat) (n : nat) : nat := hd 0 rng `mod` n.

Definition random_choice (seq : list string) (rng : list nat)
  : result string * list nat :=
  match seq !! draw_index rng (length seq) with
  | Some x => (inr x, tail rng)
  | None => (inl (IndexError "Cannot choose from an empty sequence"), rng)
  end.

Definition starting_positions : gmap string string :=
  list_to_map
    [("Scarlet", "Hallway_02"); ("Mustard", "Hallway_03");
     ("White", "Hallway_05"); ("Green", "Hallway_06");
     ("Peacock", "Hallway_07"); ("Plum", "Hallway_08")].

Definition _get_starting_location (selected_player : string)
  : result string :=
  from_key selected_player (starting_positions !! selected_player).

(** [Player(player_id, available_suspects_list, total_players)].  The new
    instance has no attribute of its own yet, so [self._player_count] reads
    the class attribute; [self._player_count += 1] then binds the sum as an
    attribute of the instance, and the class attribute stays as it was. *)
Definition __init__ (player_id : string)
    (available_suspects_list : list string) (total_players : nat)
    (cls : ClassAttrs) (rng : list nat)
  : result Player * ClassAttrs * list nat :=
  if bool_decide (class_player_count cls ≤ 5)%Z then
    let count := (class_player_count cls + 1)%Z in
    match random_choice available_suspects_list rng with
    | (inl e, rng) => (inl e, cls, rng)
    | (inr selected_suspect, rng) =>
        (rbind (_get_starting_location selected_suspect) (λ location,
         let pad := Pad_new total_players in
         rbind (get_player_table pad player_id) (λ tbl,
         inr (mkPlayer count selected_suspect location {[location]} pad
                (table_cards tbl) player_id))),
         cls, rng)
    end
  else (inl PlayerLimitExceeded, cls, rng).

(** A run of constructions in one process: the class attributes and the
    random source are threaded from one construction to the next. *)
Fixpoint construct_all (requests : list (string * list string * nat))
    (cls : ClassAttrs) (rng : list nat) : list (result Player) * ClassAttrs :=
  match requests with
  | [] => ([], cls)
  | (player_id, available, total) :: rest =>
      let '(r, cls, rng) := __init__ player_id available total cls rng in
      let '(rs, cls) := construct_all rest cls rng in
      (r :: rs, cls)
  end.

(** ** Move selection *)

Definition random_sample1 (population : list string) : M string := λ w,
  match population !! draw_index (rng w) (length population) with
  | Some x =>
      (inr x, mkWorld (self w) (game_state w) (heap w) (tail (rng w)))
  | None => (inl (ValueError "Sample larger than population"), w)
  end.

Section Moves.
(** [Board.neighborhood], from [auto.board], which is not part of the
    sources: the locations within the given number of hops. *)
Variable neighborhood : string → nat → gset string.
(** The order in which Python iterates over a set. *)
Variable set_order : gset string → list string.

Definition _set_location : M unit :=
  gs ← get_game_state;
  me ← get_self;
  positions ← lift (from_key "positions" (gs_positions gs));
  location ← lift (from_key (player_id me) (positions !! player_id me));
  put_self
    (set_prior_moves ({[location]} ∪ _prior_moves me)
       (set_location location me)).

Definition _next_moves (current_location : string) : gset string :=
  neighborhood current_location 1.

Definition _filter_moves : M (gset string) :=
  _set_location ;;
  me ← get_self;
  let next_moves := _next_moves (_location me) in
  let prior_moves := _prior_moves me in
  gs ← get_game_state;
  positions ← lift (from_key "positions" (gs_positions gs));
  let occupied_locations : gset string := map_img positions in
  let available_moves := next_moves ∖ occupied_locations in
  let available_moves := available_moves ∖ prior_moves in
  if bool_decide (available_moves = ∅) then
    let possible_moves := next_moves ∖ occupied_locations in
    if bool_decide (0 < size possible_moves)%nat then
      pick_me ← random_sample1 (set_order possible_moves);
      mret ({[pick_me]} ∪ available_moves)
    else mret available_moves
  else mret available_moves.

(** The loop body returns in both branches, so the loop ends at the first
    element of the iteration; the result is the [move] field of the
    response. *)
Definition _make_move (available_moves : gset string) : M string :=
  match set_order available_moves with
  | [] => mret ""
  | move :: _ =>
      me ← get_self;
      if bool_decide (move ∉ _prior_moves me) then
        put_self (set_prior_moves ({[move]} ∪ _prior_moves me) me) ;;
        mret move
      else mret move
  end.

Definition take_turn : M string :=
  available_moves ← _filter_moves;
  _make_move available_moves.
End Moves.

(** * Vocabulary of the properties *)

Definition with_pad (pad : Pad) (w : World) : World :=
  mkWorld (set_pad pad (self w)) (game_state w) (heap w) (rng w).

(** The pad in which one cell went through [f], all others as before. *)
Definition pad_alter (f : row → row) (player card : string) (pad : Pad)
  : Pad :=
  mkPad (players_list pad) (alter (alter f card) player (player_pad pad)).

Definition mark_c1 (v : Z) (r : row) : row := Row v (c2 r).
Definition mark_c2 (entry : nat) (r : row) : row :=
  Row (c1 r) ({[entry]} ∪ c2 r).

(** The marks of a hand: in the table of [player], [c1] of every card of the
    hand is 1; all other cells are as before. *)
Definition hand_marked (player : string) (hand : list string)
    (pad pad' : Pad) : Prop :=
  players_list pad' = players_list pad ∧
  ∀ q k, cell pad' q k =
    if decide (q = player ∧ k ∈ hand) then mark_c1 1 <$> cell pad q k
    else cell pad q k.


(** The effect of an undirected signal of [player] for the cards of
    [triple]: [token] joins [c2] of these cards in the table of [player]; no
    other cell differs. *)
Definition signalled (player : string) (triple : list string) (token : nat)
    (pad pad' : Pad) : Prop :=
  players_list pad' = players_list pad ∧
  ∀ q k, cell pad' q k =
    if decide (q = player ∧ k ∈ triple) then mark_c2 token <$> cell pad q k
    else cell pad q k.

(** [c1] of a card in the own table of the player. *)
Definition own_c1 (w : World) (card : string) : option Z :=
  c1 <$> cell (_pad (self w)) (player_id (self w)) card.

(** [reply] is the first card of [cards] that the player holds, or
    [no_match] when the player holds none of them. *)
Definition first_confirmed (w : World) (cards : list string)
    (reply : string) : Prop :=
  (∃ before after, cards = (before ++ reply :: after)%list
     ∧ own_c1 w reply = Some 1%Z
     ∧ ∀ card, card ∈ before → own_c1 w card ≠ Some 1%Z)
  ∨ (reply = "no_match"
     ∧ ∀ card, card ∈ cards → own_c1 w card ≠ Some 1%Z).

(** The cards that [receive_cards] accepts are cards of the own table: the
    constructor takes [_cards] from the index of that table. *)
Definition cards_on_pad (p : Player) : Prop :=
  ∀ card, card ∈ _cards p → is_Some (cell (_pad p) (player_id p) card).

Definition with_heap (h : gmap nat (list string)) (w : World) : World :=
  mkWorld (self w) (game_state w) h (rng w).

(** [w'] agrees with [w] on the payload and on every list object of [w]
    outside [X]. *)
Definition same_payload (X : gset nat) (w w' : World) : Prop :=
  game_state w' = game_state w ∧
  ∀ r, is_Some (heap w !! r) → r ∉ X → heap w' !! r = heap w !! r.

Definition keeps {A} (X : gset nat) (m : M A) : Prop :=
  ∀ w, same_payload X w (m w).2.

Definition shows_one (pad : Pad) (card player : string) : bool :=
  bool_decide (c1 <$> cell pad player card = Some 1%Z).

(** As the spec words it: a card is unknown when, over every tracked
    player, no [c1] of the card shows 1. *)
Definition unknown_spec (pad : Pad) (card : string) : bool :=
  forallb (λ player, negb (shows_one pad card player)) (players_list pad).

Definition unknown_cards_spec (pad : Pad) (cards : list string)
  : gset string :=
  list_to_set (filter (λ card, unknown_spec pad card = true) cards).

(** What the loop of [_get_unknown_cards] computes: a card is taken for
    unknown when there are at least four tables and the first four of them
    do not show 1. *)
Definition unknown_code (pad : Pad) (card : string) : bool :=
  bool_decide (4 ≤ length (players_list pad))
  && forallb (λ player, negb (shows_one pad card player))
       (take 4 (players_list pad)).

(** The server side of a game: it builds a player, and hands it payloads. *)
Definition no_payload : GameState := mkGameState None None None None.

Definition fresh_world (player_id : string) (total_players : nat) : World :=
  mkWorld
    (mkPlayer 1 "Mustard" "Hallway_03" {["Hallway_03"]}
       (Pad_new total_players) (table_cards blank_table) player_id)
    no_payload ∅ [].

Definition deliver (gs : GameState) (w : World) : World :=
  mkWorld (self w) gs (heap w) (rng w).

Definition directed_answer (player card : string) : GameState :=
  mkGameState None None (Some (mkAnswer (Some player) None (Some card))) None.

Definition reveal (w : World) (shown : string * string) : World :=
  (update (deliver (directed_answer shown.1 shown.2) w)).2.

(** An undirected signal: the server puts the three suggested cards in a
    list of its own and names it under [cards]. *)
Definition undirected_signal (player : string) (cards : list string)
    (w : World) : World :=
  let r := fresh (dom (heap w)) in
  mkWorld (self w)
    (mkGameState None None (Some (mkAnswer (Some player) (Some true) None))
       (Some r))
    (<[r := cards]> (heap w)) (rng w).

(** The token that [_mark_pad] computes for a signal in the world [w]. *)
Definition signal_token (player : string) (cards : list string) (w : World)
  : option nat :=
  match reverse cards with
  | card01 :: card02 :: card03 :: _ =>
      row01 ← cell (_pad (self w)) player card01;
      row02 ← cell (_pad (self w)) player card02;
      row03 ← cell (_pad (self w)) player card03;
      Some (new_entry (c2 row01) (c2 row02) (c2 row03))
  | _ => None
  end.

(** The (player, token) pairs of a run of undirected signals. *)
Fixpoint signal_tokens (events : list (string * list string)) (w : World)
  : list (string * nat) :=
  match events with
  | [] => []
  | (player, cards) :: rest =>
      option_list (pair player <$> signal_token player cards w)
      ++ signal_tokens rest (update (undirected_signal player cards w)).2
  end.

(** A game of five: this player is dealt four cards, then sees every other
    dealt card but one in directed reveals.  The envelope holds Plum, the
    Wrench and the Kitchen. *)
Definition game5_hand : list string := ["Mustard"; "Knife"; "Study"; "Hall"].

Definition game5_reveals : list (string * string) :=
  [("p02", "Scarlet"); ("p02", "Revolver"); ("p02", "Lounge");
   ("p03", "White"); ("p03", "Pipe"); ("p03", "Library");
   ("p03", "Billiard");
   ("p04", "Green"); ("p04", "Candlestick"); ("p04", "Dining");
   ("p04", "Conservatory");
   ("p05", "Peacock"); ("p05", "Rope")].

Definition game5 : World :=
  foldl reveal (receive_cards game5_hand (fresh_world "p01" 5)).2
    game5_reveals.

(** The same deal among four players. *)
Definition game4_hand : list string :=
  ["Mustard"; "Knife"; "Study"; "Hall"; "Peacock"].

Definition game4_reveals : list (string * string) :=
  [("p02", "Scarlet"); ("p02", "Revolver"); ("p02", "Lounge");
   ("p02", "Rope");
   ("p03", "White"); ("p03", "Pipe"); ("p03", "Library");
   ("p03", "Billiard");
   ("p04", "Green"); ("p04", "Candlestick"); ("p04", "Dining");
   ("p04", "Conservatory")].

Definition game4 : World :=
  foldl reveal (receive_cards game4_hand (fresh_world "p01" 4)).2
    game4_reveals.

Definition envelope : gset string := {["Plum"; "Wrench"; "Kitchen"]}.

Definition six_requests : list (string * list string * nat) :=
  (λ player_id, (player_id, suspects, 6)) <$> player_ids.

Definition is_constructed (r : result Player) : bool :=
  match r with
  | inr _ => true
  | inl _ => false
  end.

(** A move that is no occupied location: an unoccupied neighbour when there
    is one, the empty move field when there is none. *)
Definition unoccupied_move (neighbors occupied : gset string)
    (move : string) : Prop :=
  ((∃ n, n ∈ neighbors ∧ n ∉ occupied) →
   move ∈ neighbors ∧ move ∉ occupied) ∧
  ((∀ n, n ∈ neighbors → n ∈ occupied) → move = "").

(** The preference of the move selection, over the unoccupied neighbours
    [possible]: an unvisited one when there is one; else the one at the
    index that the draw selects in the iteration of [possible], where each
    of them is at exactly one index; the empty move field when [possible]
    is empty, and then only. *)
Definition preferred_move (set_order : gset string → list string)
    (neighbors possible visited : gset string) (draw : nat)
    (move : string) : Prop :=
  ((∃ n, n ∈ possible ∧ n ∉ visited) → move ∈ possible ∧ move ∉ visited) ∧
  (possible ≠ ∅ → (∀ n, n ∈ possible → n ∈ visited) →
   move ∈ possible ∧
   set_order possible !! (draw `mod` size possible) = Some move) ∧
  (∀ n, n ∈ possible →
     ∃ k, k < size possible ∧
       ∀ j, set_order possible !! j = Some n ↔ j = k) ∧
  (possible = ∅ → move = "") ∧
  ("" ∉ neighbors → move = "" → possible = ∅).

(** A board of one hallway between two rooms, two players, and the request
    for a turn of the first. *)
Definition hallway_board (location : string) (hops : nat) : gset string :=
  if decide (location = "Hallway_03" ∧ hops = 1) then {["Lounge"; "Dining"]}
  else ∅.

Definition turn_positions : gmap string string :=
  <["p01" := "Hallway_03"]> (<["p02" := "Lounge"]> ∅).

Definition turn_request : World :=
  deliver (mkGameState (Some turn_positions) None None None)
    (fresh_world "p01" 3).

(** The same request with the third player in the Dining room. *)
Definition blocked_request : World :=
  deliver
    (mkGameState (Some (<["p03" := "Dining"]> turn_positions)) None None None)
    (fresh_world "p01" 3).

(** The player holds the Rope and is asked for Mustard, the Rope or the
    Study. *)
Definition question : World :=
  deliver
    (mkGameState None
       (Some (mkSuggestion (Some "p01") (Some ["Mustard"; "Rope"; "Study"])))
       None None)
    (receive_cards ["Rope"; "Hall"; "Knife"] (fresh_world "p01" 3)).2.

Definition seven_cards : list string :=
  ["Mustard"; "Rope"; "Study"; "Hall"; "Knife"; "Plum"; "Green"].

(** The state after [_set_location]. *)
Definition located (location : string) (w : World) : World :=
  mkWorld
    (set_prior_moves ({[location]} ∪ _prior_moves (self w))
       (set_location location (self w)))
    (game_state w) (heap w) (rng w).

(** The state after a move that is new to the player. *)
Definition moved (move : string) (w : World) : World :=
  mkWorld (set_prior_moves ({[move]} ∪ _prior_moves (self w)) (self w))
    (game_state w) (heap w) (rng w).

Definition drawn (w : World) : World :=
  mkWorld (self w) (game_state w) (heap w) (tail (rng w)).

(** * Properties *)

(** ** Running the state monad *)

Lemma bind_run {A B} (m : M A) (k : A → M B) (w : World) :
  (m ≫= k) w =
  match m w with
  | (inl e, w') => (inl e, w')
  | (inr a, w') => k a w'
  end.
Proof. reflexivity. Qed.

Lemma with_pad_id (w : World) : with_pad (_pad (self w)) w = w.
Proof. destruct w as [[] ? ? ?]. reflexivity. Qed.

(** ** Cells of the pad *)

Lemma cell_pad_alter (f : row → row) (player card : string) (pad : Pad)
    (q k : string) :
  cell (pad_alter f player card pad) q k =
  if decide (q = player ∧ k = card) then f <$> cell pad q k
  else cell pad q k.
Proof.
  unfold cell, pad_alter. simpl. rewrite lookup_alter.
  destruct (decide (player = q)) as [->|Hq].
  - destruct (player_pad pad !! q) as [tbl|] eqn:Ht; simpl.
    + rewrite lookup_alter.
      destruct (decide (card = k)) as [->|Hk].
      * rewrite decide_True by done. reflexivity.
      * rewrite decide_False by (intros [_ ?]; congruence). reflexivity.
    + case_decide; reflexivity.
  - rewrite decide_False by (intros [? _]; congruence). reflexivity.
Qed.

Lemma players_list_pad_alter (f : row → row) (player card : string)
    (pad : Pad) :
  players_list (pad_alter f player card pad) = players_list pad.
Proof. reflexivity. Qed.

Lemma cell_Some (pad : Pad) (player card : string) (r : row) :
  cell pad player card = Some r ↔
  ∃ tbl, player_pad pad !! player = Some tbl ∧ tbl !! card = Some r.
Proof.
  unfold cell. destruct (player_pad pad !! player) as [tbl|]; simpl.
  - split; [eauto | intros (? & ? & ?); congruence].
  - split; [done | intros (? & ? & _); congruence].
Qed.

Lemma insert_as_alter {A} (f : A → A) (m : gmap string A) (key : string)
    (x : A) :
  m !! key = Some x → <[key := f x]> m = alter f key m.
Proof.
  intros H. apply map_eq. intros k. rewrite lookup_alter, lookup_insert.
  destruct (decide (key = k)) as [->|]; [rewrite H|]; reflexivity.
Qed.

(** A write to a cell that exists succeeds and changes that cell only. *)
Lemma modify_cell (f : row → row) (g : gmap string row → result (gmap string row))
    (player card : string) (w : World) (r : row) :
  cell (_pad (self w)) player card = Some r →
  (∀ tbl, tbl !! card = Some r → g tbl = inr (<[card := f r]> tbl)) →
  modify_table player g w
  = (inr (), with_pad (pad_alter f player card (_pad (self w))) w).
Proof.
  intros (tbl & Hp & Hc)%cell_Some Hg.
  unfold modify_table, get_player_table.
  rewrite bind_run. simpl. rewrite bind_run. unfold lift at 1.
  rewrite Hp. simpl. rewrite bind_run. unfold lift.
  rewrite (Hg _ Hc). simpl. unfold put_self, with_pad. simpl.
  do 3 f_equal. unfold set_player_table, pad_alter. f_equal.
  rewrite (insert_as_alter f _ _ _ Hc).
  apply insert_as_alter with (f := alter f card). exact Hp.
Qed.

Lemma set_c1_ok (player card : string) (v : Z) (w : World) (r : row) :
  cell (_pad (self w)) player card = Some r →
  set_c1 player card v w
  = (inr (), with_pad (pad_alter (mark_c1 v) player card (_pad (self w))) w).
Proof.
  intros H. apply (modify_cell _ _ _ _ _ r H).
  intros tbl Ht. unfold write_c1. rewrite Ht. reflexivity.
Qed.

Lemma add_c2_ok (player card : string) (entry : nat) (w : World) (r : row) :
  cell (_pad (self w)) player card = Some r →
  add_c2 player card entry w
  = (inr (),
     with_pad (pad_alter (mark_c2 entry) player card (_pad (self w))) w).
Proof.
  intros H. apply (modify_cell _ _ _ _ _ r H).
  intros tbl Ht. unfold read_c2, write_c2. rewrite Ht. reflexivity.
Qed.


(** ** Card receipt *)

Lemma check_dealt_run (card : string) (w : World) :
  check_dealt card w =
  if bool_decide (card ∈ _cards (self w)) then (inr (), w)
  else (inl (UnrecognizedCard card), w).
Proof.
  unfold check_dealt, _verify_card. rewrite !bind_run. simpl.
  destruct (bool_decide (card ∈ _cards (self w))); reflexivity.
Qed.

Lemma check_loop_ok (l : list string) (w : World) :
  (∀ card, card ∈ l → card ∈ _cards (self w)) →
  for_each l check_dealt w = (inr (), w).
Proof.
  induction l as [|card rest IH]; intros Hall; [reflexivity|].
  simpl. rewrite bind_run, check_dealt_run.
  rewrite bool_decide_eq_true_2 by (apply Hall; left).
  apply IH. intros c Hc. apply Hall. by right.
Qed.

Lemma check_loop_err (l : list string) (w : World) :
  (∃ card, card ∈ l ∧ card ∉ _cards (self w)) →
  ∃ card, card ∈ l ∧ (card ∉ _cards (self w)) ∧
    for_each l check_dealt w = (inl (UnrecognizedCard card), w).
Proof.
  induction l as [|card rest IH]; intros (bad & Hin & Hbad).
  - by apply elem_of_nil in Hin.
  - simpl. rewrite bind_run, check_dealt_run.
    destruct (decide (card ∈ _cards (self w))) as [Hok|Hno].
    + rewrite bool_decide_eq_true_2 by done.
      destruct IH as (c & ? & ? & ?).
      { exists bad. split; [|done].
        apply elem_of_cons in Hin as [->|]; done. }
      exists c. split; [by right | done].
    + rewrite bool_decide_eq_false_2 by done.
      exists card. split; [by left | done].
Qed.

Lemma hand_size_test (l : list string) :
  negb ((3 <=? length l)%nat && (length l <=? 6)%nat) = false
  ↔ 3 ≤ length l ≤ 6.
Proof.
  rewrite negb_false_iff, andb_true_iff, !Nat.leb_le. reflexivity.
Qed.

Lemma mark_c1_twice (v : Z) (r : row) : mark_c1 v (mark_c1 v r) = mark_c1 v r.
Proof. reflexivity. Qed.

Lemma mark_c2_twice (entry : nat) (r : row) :
  mark_c2 entry (mark_c2 entry r) = mark_c2 entry r.
Proof. unfold mark_c2. simpl. f_equal. set_solver. Qed.


(** A loop that puts the cells [key a], for [a] in [l], through an idempotent
    [f] succeeds when these cells exist, and changes these cells only. *)
Lemma alter_loop {A} (f : row → row) (op : A → M unit)
    (key : A → string * string) (l : list A) (w : World) :
  (∀ r, f (f r) = f r) →
  (∀ a w r, cell (_pad (self w)) (key a).1 (key a).2 = Some r →
     op a w
     = (inr (),
        with_pad (pad_alter f (key a).1 (key a).2 (_pad (self w))) w)) →
  (∀ a, a ∈ l → is_Some (cell (_pad (self w)) (key a).1 (key a).2)) →
  ∃ pad', for_each l op w = (inr (), with_pad pad' w) ∧
    players_list pad' = players_list (_pad (self w)) ∧
    ∀ q k, cell pad' q k =
      if decide ((q, k) ∈ key <$> l) then f <$> cell (_pad (self w)) q k
      else cell (_pad (self w)) q k.
Proof.
  intros Hidem Hop. revert w.
  induction l as [|a rest IH]; intros w Hall.
  - exists (_pad (self w)). split.
    + simpl. unfold mret, M_ret. by rewrite with_pad_id.
    + split; [done|]. intros q k. rewrite decide_False; [done|].
      simpl. apply not_elem_of_nil.
  - destruct (Hall a) as [r Hr]; [by left|].
    simpl. rewrite bind_run, (Hop _ _ r Hr).
    set (pad1 := pad_alter f (key a).1 (key a).2 (_pad (self w))).
    destruct (IH (with_pad pad1 w)) as (pad' & Hrun & Hlist & Hcells).
    { intros b Hb. simpl. unfold pad1. rewrite cell_pad_alter.
      destruct (Hall b) as [x Hx]; [by right|]. rewrite Hx.
      destruct (decide _); simpl; eauto. }
    exists pad'. split; [by rewrite Hrun|].
    split; [by rewrite Hlist|].
    intros q k. rewrite Hcells. simpl. unfold pad1.
    rewrite cell_pad_alter.
    destruct (decide ((q, k) = key a)) as [Heq|Hne].
    + rewrite (decide_True (P := q = _ ∧ k = _)) by (by rewrite <- Heq).
      rewrite (decide_True (P := _ ∈ key a :: _)) by (rewrite Heq; left).
      destruct (cell (_pad (self w)) q k) as [x|]; simpl;
        [rewrite Hidem|]; case_decide; reflexivity.
    + rewrite (decide_False (P := q = _ ∧ k = _)).
      2:{ intros [-> ->]. apply Hne. by destruct (key a). }
      destruct (decide ((q, k) ∈ key <$> rest)) as [Hin|Hin].
      * rewrite decide_True; [done | by right].
      * rewrite decide_False; [done|].
        intros [?|?]%elem_of_cons; done.
Qed.

Lemma elem_of_row (player : string) (l : list string) (q k : string) :
  (q, k) ∈ (λ card, (player, card)) <$> l ↔ q = player ∧ k ∈ l.
Proof.
  rewrite list_elem_of_fmap. split.
  - intros (card & [= -> ->] & ?). done.
  - intros [-> ?]. eauto.
Qed.


Lemma mark_loop (player : string) (l : list string) (w : World) :
  (∀ card, card ∈ l → is_Some (cell (_pad (self w)) player card)) →
  ∃ pad', for_each l (λ card, set_c1 player card 1) w
          = (inr (), with_pad pad' w) ∧
    hand_marked player l (_pad (self w)) pad'.
Proof.
  intros Hall.
  destruct (alter_loop (mark_c1 1) (λ card, set_c1 player card 1)
              (λ card, (player, card)) l w)
    as (pad' & Hrun & Hlist & Hcells).
  - apply mark_c1_twice.
  - intros card w' r. apply set_c1_ok.
  - exact Hall.
  - exists pad'. split; [done|]. split; [done|].
    intros q k. rewrite Hcells.
    apply decide_ext, elem_of_row.
Qed.


Lemma mark_my_cards_run (dealt_cards : list string) (w : World) :
  dealt_cards ≠ [] →
  (∀ card, card ∈ dealt_cards →
     is_Some (cell (_pad (self w)) (player_id (self w)) card)) →
  ∃ pad', _mark_my_cards_on_pad dealt_cards w = (inr (), with_pad pad' w) ∧
    hand_marked (player_id (self w)) dealt_cards (_pad (self w)) pad'.
Proof.
  intros Hne Hall. unfold _mark_my_cards_on_pad.
  rewrite bind_run. simpl. rewrite bind_run.
  destruct dealt_cards as [|card rest]; [done|].
  destruct (Hall card) as [r (tbl & Ht & _)%cell_Some]; [by left|].
  unfold lift, get_player_table. rewrite Ht. simpl.
  apply (mark_loop _ (card :: rest) w Hall).
Qed.

(** C6: a hand of fewer than 3 or more than 6 cards is refused with
    [InvalidHandSize], a hand of 3 to 6 cards with a card outside the
    recognized cards is refused with [UnrecognizedCard]; either way the
    player, its tracking pad included, is exactly as before the call. *)
Theorem receive_cards_rejects (dealt_cards : list string) (w : World) :
  ¬ (3 ≤ length dealt_cards ≤ 6)
  ∨ (∃ card, card ∈ dealt_cards ∧ card ∉ _cards (self w)) →
  ∃ e, receive_cards dealt_cards w = (inl e, w) ∧
    (¬ (3 ≤ length dealt_cards ≤ 6) → e = InvalidHandSize) ∧
    (3 ≤ length dealt_cards ≤ 6 →
     ∃ card, e = UnrecognizedCard card ∧ card ∈ dealt_cards ∧
       card ∉ _cards (self w)).
Proof.
  intros Hbad. unfold receive_cards.
  destruct (negb _) eqn:Hsize.
  - exists InvalidHandSize. split; [reflexivity|]. split; [done|].
    intros Hlen. apply hand_size_test in Hlen. congruence.
  - apply hand_size_test in Hsize.
    destruct Hbad as [Hlen|Hcard]; [done|].
    destruct (check_loop_err _ w Hcard) as (card & Hin & Hout & Hrun).
    exists (UnrecognizedCard card). split.
    + rewrite bind_run, Hrun. reflexivity.
    + split; [done|]. intros _. exists card. done.
Qed.

(** C7: a hand of 3 to 6 recognized cards is accepted; afterwards [c1] is 1
    for each dealt card in the player's own table, and every other cell of
    every table ([c2] of the dealt cards included) is as before. *)
Theorem receive_cards_marks_hand (dealt_cards : list string) (w : World) :
  3 ≤ length dealt_cards ≤ 6 →
  (∀ card, card ∈ dealt_cards → card ∈ _cards (self w)) →
  cards_on_pad (self w) →
  ∃ pad', receive_cards dealt_cards w = (inr (), with_pad pad' w) ∧
    hand_marked (player_id (self w)) dealt_cards (_pad (self w)) pad'.
Proof.
  intros Hlen Hrec Hpad. unfold receive_cards.
  rewrite (proj2 (hand_size_test _) Hlen).
  rewrite bind_run, (check_loop_ok _ _ Hrec).
  apply mark_my_cards_run.
  - intros ->. simpl in Hlen. lia.
  - intros card Hin. apply Hpad, Hrec, Hin.
Qed.

(** ** Answering a suggestion *)

Lemma first_marked_spec (tbl : gmap string row) (suggestion : list string) :
  (∃ before after,
      suggestion = (before ++ first_marked tbl suggestion :: after)%list
     ∧ marked tbl (first_marked tbl suggestion) = true
     ∧ ∀ card, card ∈ before → marked tbl card = false)
  ∨ (first_marked tbl suggestion = "no_match"
     ∧ ∀ card, card ∈ suggestion → marked tbl card = false).
Proof.
  induction suggestion as [|card rest IH]; simpl.
  - right. split; [done|]. intros ? H. by apply elem_of_nil in H.
  - destruct (marked tbl card) eqn:Hm.
    + left. exists [], rest. split; [done|]. split; [done|].
      intros ? H. by apply elem_of_nil in H.
    + destruct IH as [(before & after & Heq & Hfound & Hnone)|[Heq Hnone]].
      * left. exists (card :: before), after.
        split; [by rewrite Heq at 1|]. split; [done|].
        intros c [->|?]%elem_of_cons; auto.
      * right. split; [done|].
        intros c [->|?]%elem_of_cons; auto.
Qed.

Lemma marked_cell (pad : Pad) (player card : string) (tbl : gmap string row) :
  player_pad pad !! player = Some tbl →
  marked tbl card = true ↔ c1 <$> cell pad player card = Some 1%Z.
Proof.
  intros Ht. unfold marked, cell. rewrite Ht. simpl.
  destruct (tbl !! card) as [r|]; simpl.
  - rewrite bool_decide_eq_true. split; congruence.
  - split; discriminate.
Qed.

(** C5: a suggestion addressed to this player is answered with the first
    suggested card, in the order of the payload, whose [c1] in the player's
    own table is 1, and with [no_match] when no suggested card is marked;
    the player, its pad included, and the payload are as before. *)
Theorem update_answers_first_marked (w : World) (suggestion : Suggestion)
    (cards : list string) :
  gs_suggestion (game_state w) = Some suggestion →
  to_player suggestion = Some (player_id (self w)) →
  sg_cards suggestion = Some cards →
  is_Some (player_pad (_pad (self w)) !! player_id (self w)) →
  ∃ reply, update w = (inr (RCard reply), w) ∧ first_confirmed w cards reply.
Proof.
  intros Hs Hto Hcards [tbl Ht]. set (own := own_c1 w).
  exists (first_marked tbl cards). split.
  - unfold update. rewrite bind_run. simpl. rewrite bind_run. simpl.
    unfold addressed. rewrite Hs, Hto, bool_decide_eq_true_2 by done.
    rewrite bind_run. unfold lift at 1. rewrite Hcards. simpl.
    rewrite bind_run. unfold _answer at 1. rewrite bind_run. simpl.
    rewrite bind_run. unfold lift, get_player_table. rewrite Ht. reflexivity.
  - assert (Hown : ∀ card, marked tbl card = false → own card ≠ Some 1%Z).
    { intros card Hm Hone. apply (marked_cell _ _ _ _ Ht) in Hone.
      congruence. }
    unfold first_confirmed. fold own.
    destruct (first_marked_spec tbl cards)
      as [(before & after & Heq & Hfound & Hnone)|[Heq Hnone]].
    + left. exists before, after. split; [done|]. split.
      * by apply (marked_cell _ _ _ _ Ht).
      * intros card Hin. apply Hown, Hnone, Hin.
    + right. split; [done|]. intros card Hin. apply Hown, Hnone, Hin.
Qed.

(** ** Accusation analysis *)

(** The analysis reads the pad and writes nothing. *)
Lemma get_unknown_cards_reads (w : World) : (_get_unknown_cards w).2 = w.
Proof.
  unfold _get_unknown_cards. rewrite bind_run. simpl. rewrite bind_run.
  unfold lift at 1. destruct (get_player_table _ _); reflexivity.
Qed.

Lemma analyze_reads (w : World) : (_analyze_table_to_accuse w).2 = w.
Proof.
  unfold _analyze_table_to_accuse. rewrite bind_run. simpl.
  rewrite bind_run. unfold lift at 1.
  destruct (get_player_table _ _); [reflexivity|]. simpl.
  rewrite bind_run. pose proof (get_unknown_cards_reads w) as H.
  destruct (_get_unknown_cards w) as [[e|s] w']; simpl in H; subst w';
    [reflexivity|].
  destruct (bool_decide _); reflexivity.
Qed.

Lemma bind_analyze {A} (m : M A) (w w' : World) :
  (m w).2 = w' → is_Some (ok (m w).1) →
  ((m ;; _analyze_table_to_accuse) w).2 = w'.
Proof.
  intros Hw [a Ha]. rewrite bind_run.
  destruct (m w) as [[e|x] w1]; simpl in *; [done|]. subst w1.
  apply analyze_reads.
Qed.

(** ** Recording an answer *)

Lemma update_records (w : World) (answer : Answer) :
  addressed (game_state w) (player_id (self w)) = None →
  gs_answer (game_state w) = Some answer →
  (update w).2 = (_mark_pad w).2.
Proof.
  intros Hto Hans. unfold update. rewrite bind_run. simpl.
  rewrite bind_run. simpl. rewrite Hto, Hans, bind_run.
  destruct (_mark_pad w) as [[e|acc] w']; [reflexivity|].
  destruct (falsy acc); reflexivity.
Qed.

Lemma mark_pad_branch (w : World) (answer : Answer) (player : string)
    (tbl : gmap string row) :
  gs_answer (game_state w) = Some answer →
  from_player answer = Some player →
  player_pad (_pad (self w)) !! player = Some tbl →
  _mark_pad w =
  (match has_card answer with
   | Some true =>
       cards ← lift (from_key "cards" (gs_cards (game_state w)));
       suggestions ← list_copy cards;
       card01 ← list_pop suggestions;
       card02 ← list_pop suggestions;
       card03 ← list_pop suggestions;
       cell01 ← get_c2 player card01;
       cell02 ← get_c2 player card02;
       cell03 ← get_c2 player card03;
       let entry := new_entry cell01 cell02 cell03 in
       add_c2 player card01 entry ;;
       add_c2 player card02 entry ;;
       add_c2 player card03 entry
   | Some false => mret ()
   | None =>
       card_provided ← lift (from_key "card" (an_card answer));
       set_c1 player card_provided 1 ;;
       _clear_c2_cells card_provided
   end ;; _analyze_table_to_accuse) w.
Proof.
  intros Hans Hfrom Htbl. unfold _mark_pad.
  rewrite bind_run. simpl. rewrite bind_run. unfold lift at 1.
  rewrite Hans. simpl. rewrite bind_run. unfold lift at 1.
  rewrite Hfrom. simpl. rewrite bind_run. simpl.
  rewrite bind_run. unfold lift at 1, get_player_table.
  rewrite Htbl. reflexivity.
Qed.

(** A negative answer changes nothing. *)
Lemma update_negative_answer (w : World) (answer : Answer) (player : string) :
  addressed (game_state w) (player_id (self w)) = None →
  gs_answer (game_state w) = Some answer →
  from_player answer = Some player →
  has_card answer = Some false →
  is_Some (player_pad (_pad (self w)) !! player) →
  (update w).2 = w.
Proof.
  intros Hto Hans Hfrom Hhas [tbl Htbl].
  rewrite (update_records _ _ Hto Hans).
  rewrite (mark_pad_branch _ _ _ _ Hans Hfrom Htbl), Hhas.
  apply bind_analyze; simpl; eauto.
Qed.


(** *** The undirected signal *)

Lemma list_copy_run (r : nat) (l : list string) (w : World) :
  heap w !! r = Some l →
  list_copy r w
  = (inr (fresh (dom (heap w))),
     with_heap (<[fresh (dom (heap w)) := l]> (heap w)) w).
Proof. intros H. unfold list_copy. rewrite H. reflexivity. Qed.

Lemma list_pop_run (r : nat) (l : list string) (x : string) (w : World) :
  heap w !! r = Some (l ++ [x])%list →
  list_pop r w = (inr x, with_heap (<[r := l]> (heap w)) w).
Proof.
  intros H. unfold list_pop. rewrite H, last_snoc, removelast_last.
  reflexivity.
Qed.

Lemma three_pops {A} (r : nat) (rest : list string)
    (card01 card02 card03 : string) (k : string → string → string → M A)
    (w : World) :
  heap w !! r = Some (rest ++ [card03; card02; card01])%list →
  (card01 ← list_pop r; card02 ← list_pop r; card03 ← list_pop r;
   k card01 card02 card03) w
  = k card01 card02 card03 (with_heap (<[r := rest]> (heap w)) w).
Proof.
  intros H.
  rewrite bind_run, (list_pop_run r (rest ++ [card03; card02]) card01).
  2:{ rewrite H, <- (assoc_L (++)). reflexivity. }
  rewrite bind_run, (list_pop_run r (rest ++ [card03]) card02).
  2:{ simpl. rewrite lookup_insert_eq, <- (assoc_L (++)). reflexivity. }
  rewrite bind_run, (list_pop_run r rest card03).
  2:{ simpl. rewrite lookup_insert_eq. reflexivity. }
  simpl. unfold with_heap. simpl. rewrite !insert_insert_eq. reflexivity.
Qed.

Lemma get_c2_run (player card : string) (w : World) (r : row) :
  cell (_pad (self w)) player card = Some r →
  get_c2 player card w = (inr (c2 r), w).
Proof.
  intros (tbl & Hp & Hc)%cell_Some. unfold get_c2.
  rewrite bind_run. simpl. rewrite bind_run.
  unfold lift, get_player_table, read_c2. rewrite Hp. simpl.
  rewrite Hc. reflexivity.
Qed.

Lemma bind_ret_unit (m : M unit) (w : World) : (m ;; mret ()) w = m w.
Proof. rewrite bind_run. by destruct (m w) as [[e|[]] w']. Qed.

Lemma three_adds (player card01 card02 card03 : string) (entry : nat)
    (w : World) :
  (add_c2 player card01 entry ;; add_c2 player card02 entry ;;
   add_c2 player card03 entry) w
  = for_each [card01; card02; card03]
      (λ card, add_c2 player card entry) w.
Proof.
  simpl. rewrite !(bind_run (add_c2 player card01 entry)).
  destruct (add_c2 player card01 entry w) as [[e|[]] w2]; [done|].
  rewrite !(bind_run (add_c2 player card02 entry)).
  destruct (add_c2 player card02 entry w2) as [[e|[]] w3]; [done|].
  by rewrite bind_ret_unit.
Qed.

(** C2, as the code has it: an undirected signal of [player] for the three
    cards at the end of the payload's card list adds the token
    [|c2 of card01 ∪ c2 of card02 ∪ c2 of card03| + 1] to [c2] of these three
    cards in the table of [player]; every other cell of the pad, and every
    [c1], is as before.  The token depends on these three cells alone. *)
Theorem update_undirected_signal (w : World) (answer : Answer)
    (player : string) (cards : nat) (rest : list string)
    (card01 card02 card03 : string) (row01 row02 row03 : row) :
  addressed (game_state w) (player_id (self w)) = None →
  gs_answer (game_state w) = Some answer →
  from_player answer = Some player →
  has_card answer = Some true →
  gs_cards (game_state w) = Some cards →
  heap w !! cards = Some (rest ++ [card03; card02; card01])%list →
  cell (_pad (self w)) player card01 = Some row01 →
  cell (_pad (self w)) player card02 = Some row02 →
  cell (_pad (self w)) player card03 = Some row03 →
  let token := size (c2 row01 ∪ c2 row02 ∪ c2 row03) + 1 in
  ∃ pad' h', (update w).2 = with_heap h' (with_pad pad' w) ∧
    signalled player [card01; card02; card03] token (_pad (self w)) pad'.
Proof.
  intros Hto Hans Hfrom Hhas Hcards Hheap H1 H2 H3 token.
  pose proof H1 as (tbl & Htbl & _)%cell_Some.
  set (r' := fresh (dom (heap w))).
  set (h' := <[r' := rest]> (<[r' := (rest ++ [card03; card02; card01])%list]>
                               (heap w))).
  set (w1 := with_heap h' w).
  destruct (alter_loop (mark_c2 token) (λ card, add_c2 player card token)
              (λ card, (player, card)) [card01; card02; card03] w1)
    as (pad' & Hrun & Hlist & Hcells).
  { apply mark_c2_twice. }
  { intros card w' r. apply add_c2_ok. }
  { intros card Hin. simpl.
    repeat (apply elem_of_cons in Hin as [->|Hin]; [eauto|]).
    by apply elem_of_nil in Hin. }
  exists pad', h'. split; [|split; [exact Hlist|]].
  - rewrite (update_records _ _ Hto Hans).
    rewrite (mark_pad_branch _ _ _ _ Hans Hfrom Htbl), Hhas.
    apply bind_analyze.
    all: rewrite bind_run; unfold lift at 1; rewrite Hcards; simpl.
    all: rewrite bind_run, (list_copy_run _ _ _ Hheap).
    all: rewrite (three_pops r' rest card01 card02 card03)
           by (simpl; apply lookup_insert_eq).
    all: fold r'; change (with_heap _ (with_heap _ w)) with w1.
    all: rewrite bind_run, (get_c2_run _ _ w1 _ H1).
    all: rewrite bind_run, (get_c2_run _ _ w1 _ H2).
    all: rewrite bind_run, (get_c2_run _ _ w1 _ H3).
    all: unfold new_entry; rewrite (assoc_L (∪)); fold token.
    all: rewrite three_adds, Hrun; simpl; eauto.
  - intros q k. rewrite Hcells. apply decide_ext, elem_of_row.
Qed.

(** ** The payload is not written *)

Lemma same_payload_refl (X : gset nat) (w : World) : same_payload X w w.
Proof. split; done. Qed.

Lemma same_payload_trans (X : gset nat) (w1 w2 w3 : World) :
  same_payload X w1 w2 → same_payload X w2 w3 → same_payload X w1 w3.
Proof.
  intros [Hg1 Hh1] [Hg2 Hh2]. split; [congruence|].
  intros r Hr HX.
  rewrite Hh2; [by apply Hh1 | by rewrite Hh1 | done].
Qed.

Lemma keeps_bind {A B} (X : gset nat) (m : M A) (k : A → M B) :
  keeps X m → (∀ a, keeps X (k a)) → keeps X (m ≫= k).
Proof.
  intros Hm Hk w. rewrite bind_run. specialize (Hm w).
  destruct (m w) as [[e|a] w1]; [exact Hm|].
  eapply same_payload_trans; [exact Hm | apply Hk].
Qed.

Lemma keeps_ret {A} (X : gset nat) (a : A) : keeps X (mret a : M A).
Proof. intros w. apply same_payload_refl. Qed.

Lemma keeps_lift {A} (X : gset nat) (r : result A) : keeps X (lift r).
Proof. intros w. apply same_payload_refl. Qed.

Lemma keeps_get_self (X : gset nat) : keeps X get_self.
Proof. intros w. apply same_payload_refl. Qed.

Lemma keeps_get_game_state (X : gset nat) : keeps X get_game_state.
Proof. intros w. apply same_payload_refl. Qed.

Lemma keeps_put_self (X : gset nat) (p : Player) : keeps X (put_self p).
Proof. intros w. split; done. Qed.

Lemma keeps_for_each {A} (X : gset nat) (l : list A) (body : A → M unit) :
  (∀ a, keeps X (body a)) → keeps X (for_each l body).
Proof.
  intros Hbody. induction l as [|a rest IH]; simpl.
  - apply keeps_ret.
  - apply keeps_bind; [apply Hbody | intros _; exact IH].
Qed.

Lemma keeps_modify_table (X : gset nat) (player : string)
    (g : gmap string row → result (gmap string row)) :
  keeps X (modify_table player g).
Proof.
  unfold modify_table.
  repeat (apply keeps_bind; [|intros ?]);
    auto using keeps_get_self, keeps_lift, keeps_put_self.
Qed.

Lemma keeps_get_c2 (X : gset nat) (player card : string) :
  keeps X (get_c2 player card).
Proof.
  unfold get_c2.
  repeat (apply keeps_bind; [|intros ?]);
    auto using keeps_get_self, keeps_lift.
Qed.

Lemma keeps_analyze (X : gset nat) : keeps X _analyze_table_to_accuse.
Proof. intros w. rewrite analyze_reads. apply same_payload_refl. Qed.

Lemma keeps_answer (X : gset nat) (suggestion : list string) :
  keeps X (_answer suggestion).
Proof.
  unfold _answer.
  repeat (apply keeps_bind; [|intros ?]);
    auto using keeps_get_self, keeps_lift, keeps_ret.
Qed.

(** A pop writes the popped object and nothing else. *)
Lemma keeps_list_pop (r : nat) : keeps {[r]} (list_pop r).
Proof.
  intros w. unfold list_pop.
  destruct (heap w !! r) as [l|]; [|apply same_payload_refl].
  destruct (last l); [|apply same_payload_refl].
  split; [done|]. intros r0 _ Hr0. simpl.
  apply lookup_insert_ne. set_solver.
Qed.

(** What is done to a copy leaves the objects of the caller alone. *)
Lemma keeps_copy_then {A} (r : nat) (k : nat → M A) :
  (∀ r', keeps {[r']} (k r')) → keeps ∅ (list_copy r ≫= k).
Proof.
  intros Hk w. rewrite bind_run. unfold list_copy.
  destruct (heap w !! r) as [l|]; [|apply same_payload_refl].
  set (r' := fresh (dom (heap w))).
  set (w1 := mkWorld _ _ _ _).
  destruct (Hk r' w1) as [Hg Hh]. split; [exact Hg|].
  intros r0 Hr0 _.
  assert (r0 ≠ r').
  { intros ->. apply (is_fresh (dom (heap w))), elem_of_dom, Hr0. }
  rewrite Hh.
  - simpl. by apply lookup_insert_ne.
  - simpl. rewrite lookup_insert_ne by done. exact Hr0.
  - set_solver.
Qed.

Lemma keeps_mark_pad : keeps ∅ _mark_pad.
Proof.
  unfold _mark_pad.
  repeat (apply keeps_bind;
          [first [apply keeps_get_game_state | apply keeps_get_self
                 | apply keeps_lift]
          |intros ?]).
  apply keeps_bind; [|intros _; apply keeps_analyze].
  destruct (has_card _) as [[]|].
  - apply keeps_bind; [apply keeps_lift|intros cards].
    apply keeps_copy_then. intros r'.
    do 3 (apply keeps_bind; [apply keeps_list_pop|intros ?]).
    do 3 (apply keeps_bind; [apply keeps_get_c2|intros ?]).
    do 2 (apply keeps_bind; [apply keeps_modify_table|intros _]).
    apply keeps_modify_table.
  - apply keeps_ret.
  - apply keeps_bind; [apply keeps_lift|intros card].
    apply keeps_bind; [apply keeps_modify_table|intros _].
    unfold _clear_c2_cells.
    apply keeps_bind; [apply keeps_get_self|intros me].
    apply keeps_for_each. intros player. apply keeps_modify_table.
Qed.

(** C10: [update] leaves the payload as the caller passed it: its keys are
    as before, and so is every list object that existed at the call, the
    card list of the payload among them; the undirected branch pops from a
    copy. *)
Theorem update_keeps_payload (w : World) :
  game_state (update w).2 = game_state w ∧
  ∀ r, is_Some (heap w !! r) → heap (update w).2 !! r = heap w !! r.
Proof.
  assert (H : keeps ∅ update).
  { unfold update.
    apply keeps_bind; [apply keeps_get_game_state|intros gs].
    apply keeps_bind; [apply keeps_get_self|intros me].
    destruct (addressed gs (player_id me)).
    - apply keeps_bind; [apply keeps_lift|intros cards].
      apply keeps_bind; [apply keeps_answer|intros card].
      apply keeps_ret.
    - destruct (gs_answer gs); [|apply keeps_ret].
      apply keeps_bind; [apply keeps_mark_pad|intros accusation].
      destruct (falsy accusation); apply keeps_ret. }
  destruct (H w) as [Hg Hh]. split; [exact Hg|].
  intros r Hr. apply Hh; [exact Hr | set_solver].
Qed.

(** A pop on the list of the payload itself would show in the heap. *)
Lemma list_pop_writes (r : nat) (l : list string) (x : string) (w : World) :
  heap w !! r = Some (l ++ [x])%list →
  heap (list_pop r w).2 !! r = Some l.
Proof.
  intros H. rewrite (list_pop_run _ _ _ _ H). simpl.
  apply lookup_insert_eq.
Qed.

(** ** Which cards the analysis takes for unknown *)

Lemma scan_tables_run (pad : Pad) (card : string) (keys : list string)
    (i : nat) (acc : gset string) :
  (∀ player, player ∈ keys → is_Some (cell pad player card)) →
  scan_tables pad card keys i acc =
  inr (if bool_decide (i < 4 ∧ 4 - i ≤ length keys)
          && forallb (λ player, negb (shows_one pad card player))
               (take (4 - i) keys)
       then {[card]} ∪ acc else acc).
Proof.
  revert i acc. induction keys as [|key rest IH]; intros i acc Hall.
  - simpl. rewrite bool_decide_eq_false_2 by (simpl; lia). reflexivity.
  - destruct (Hall key) as [r Hr]; [by left|].
    pose proof Hr as (tbl & Ht & Hc)%cell_Some.
    simpl. unfold get_player_table, read_c1. rewrite Ht. simpl.
    rewrite Hc. simpl.
    assert (Hshow : shows_one pad card key = bool_decide (c1 r = 1%Z)).
    { unfold shows_one. rewrite Hr. simpl. apply bool_decide_ext.
      split; congruence. }
    destruct (bool_decide (c1 r = 1%Z)) eqn:Hone.
    + destruct (decide (i < 4 ∧ 4 - i ≤ S (length rest))) as [[Hi ?]|Hi].
      * rewrite bool_decide_eq_true_2 by (simpl; lia).
        replace (4 - i) with (S (3 - i)) by lia. simpl.
        rewrite Hshow. reflexivity.
      * rewrite bool_decide_eq_false_2 by (simpl; lia). reflexivity.
    + rewrite IH by (intros; apply Hall; by right).
      destruct (decide (S i = 4)) as [Hfour|Hfour].
      * rewrite (bool_decide_eq_true_2 (S i = 4)) by done.
        rewrite (bool_decide_eq_false_2 (S i < 4 ∧ _)) by lia.
        rewrite bool_decide_eq_true_2 by (simpl; lia).
        replace (4 - i) with 1 by lia. simpl.
        rewrite Hshow. reflexivity.
      * rewrite (bool_decide_eq_false_2 (S i = 4)) by done.
        destruct (decide (i < 4 ∧ 4 - i ≤ S (length rest))) as [[Hi ?]|Hi].
        -- rewrite !bool_decide_eq_true_2 by (simpl; lia).
           replace (4 - i) with (S (4 - S i)) by lia. simpl.
           rewrite Hshow. reflexivity.
        -- rewrite !bool_decide_eq_false_2 by (simpl in *; lia).
           reflexivity.
Qed.

Lemma scan_tables_start (pad : Pad) (card : string) (acc : gset string) :
  (∀ player, player ∈ players_list pad → is_Some (cell pad player card)) →
  scan_tables pad card (players_list pad) 0 acc =
  inr (if unknown_code pad card then {[card]} ∪ acc else acc).
Proof.
  intros Hall. rewrite scan_tables_run by done.
  assert (bool_decide (0 < 4 ∧ 4 - 0 ≤ length (players_list pad))
          = bool_decide (4 ≤ length (players_list pad))) as ->
    by (apply bool_decide_ext; lia).
  reflexivity.
Qed.

Lemma scan_cards_run (pad : Pad) (cards : list string) (acc : gset string) :
  (∀ card player, card ∈ cards → player ∈ players_list pad →
     is_Some (cell pad player card)) →
  scan_cards pad cards acc =
  inr (list_to_set (filter (λ card, unknown_code pad card = true) cards)
       ∪ acc).
Proof.
  revert acc. induction cards as [|card rest IH]; intros acc Hall.
  - simpl. f_equal. set_solver.
  - cbn [scan_cards].
    rewrite scan_tables_start by (intros; apply Hall; [left|done]).
    cbn [rbind]. rewrite IH by (intros; apply Hall; [right|]; done).
    f_equal. rewrite filter_cons.
    destruct (unknown_code pad card) eqn:Hu.
    + rewrite decide_True by done. set_solver.
    + rewrite decide_False by done. set_solver.
Qed.

Lemma analyze_run (w : World) (tbl : gmap string row) :
  player_pad (_pad (self w)) !! player_id (self w) = Some tbl →
  (∀ card player, card ∈ table_cards tbl →
     player ∈ players_list (_pad (self w)) →
     is_Some (cell (_pad (self w)) player card)) →
  let unknown :=
    list_to_set (filter (λ card, unknown_code (_pad (self w)) card = true)
                   (table_cards tbl)) in
  _analyze_table_to_accuse w =
  (inr (if bool_decide (size unknown = 3) then Some unknown else None), w).
Proof.
  intros Ht Hall unknown. unfold _analyze_table_to_accuse.
  rewrite bind_run. simpl. rewrite bind_run.
  unfold lift at 1, get_player_table. rewrite Ht. simpl.
  rewrite bind_run. unfold _get_unknown_cards.
  rewrite bind_run. simpl. rewrite bind_run.
  unfold lift at 1, get_player_table. rewrite Ht. simpl.
  unfold lift. rewrite (scan_cards_run _ _ _ Hall).
  rewrite (right_id_L ∅ (∪)). fold unknown.
  destruct (bool_decide (size unknown = 3)); reflexivity.
Qed.

(** With exactly four tracked players the loop agrees with the spec. *)
Lemma unknown_code_four (pad : Pad) (card : string) :
  length (players_list pad) = 4 →
  unknown_code pad card = unknown_spec pad card.
Proof.
  intros H. unfold unknown_code, unknown_spec.
  rewrite bool_decide_eq_true_2 by lia.
  rewrite firstn_all2 by lia. reflexivity.
Qed.

(** So with exactly four tracked players the analysis accuses exactly when
    three cards are unknown in the sense of the spec. *)
Lemma analyze_four_players (w : World) (tbl : gmap string row) :
  player_pad (_pad (self w)) !! player_id (self w) = Some tbl →
  (∀ card player, card ∈ table_cards tbl →
     player ∈ players_list (_pad (self w)) →
     is_Some (cell (_pad (self w)) player card)) →
  length (players_list (_pad (self w))) = 4 →
  let unknown := unknown_cards_spec (_pad (self w)) (table_cards tbl) in
  _analyze_table_to_accuse w =
  (inr (if bool_decide (size unknown = 3) then Some unknown else None), w).
Proof.
  intros Ht Hall Hfour unknown.
  rewrite (analyze_run w tbl Ht Hall). cbv zeta.
  replace (filter _ (table_cards tbl))
    with (filter (λ card, unknown_spec (_pad (self w)) card = true)
            (table_cards tbl)); [reflexivity|].
  apply list_filter_iff. intros card.
  by rewrite (unknown_code_four _ _ Hfour).
Qed.

(** With fewer than four tracked players no card is ever taken for
    unknown. *)
Lemma unknown_code_few (pad : Pad) (card : string) :
  length (players_list pad) < 4 → unknown_code pad card = false.
Proof.
  intros H. unfold unknown_code.
  rewrite bool_decide_eq_false_2 by lia. reflexivity.
Qed.

(** ** Scenarios *)

Example fresh_world_constructed :
  __init__ "p01" suspects 5 (mkClass 0) [0]
  = (inr (self (fresh_world "p01" 5)), mkClass 0, []).
Proof. vm_compute. reflexivity. Qed.

(** With four tracked players the last reveal brings the accusation. *)
Example accusation_four_players :
  update (deliver (directed_answer "p04" "Ballroom") game4)
  = (inr (RAccusation "p01" envelope),
     reveal game4 ("p04", "Ballroom")).
Proof. vm_compute. reflexivity. Qed.

(** C1, at a game of five: after the last reveal the cards that no tracked
    player shows in [c1] are exactly three, and [update] reports no
    accusation; the loop of [_get_unknown_cards] stops counting at four
    tables and takes the cards of the fifth player for unknown as well. *)
Theorem accusation_missed_five_players :
  let reply := update (deliver (directed_answer "p05" "Ballroom") game5) in
  unknown_cards_spec (_pad (self reply.2)) deck = envelope ∧
  size (unknown_cards_spec (_pad (self reply.2)) deck) = 3 ∧
  reply.1 = inr RTurnComplete ∧
  (_get_unknown_cards reply.2).1
  = inr (envelope ∪ {["Peacock"; "Rope"; "Ballroom"]}).
Proof.
  cbv zeta. split; [|split; [|split]]; vm_compute; reflexivity.
Qed.

(** C2, as the claim has it, fails: two signals of the same player over
    disjoint triples of fresh cards both get the token 1, so the token is
    not unique per (player, response event), and after the second signal
    the token 1 marks six cards that were never in one response. *)
Lemma signal_token_repeats :
  let events := [("p02", ["Plum"; "Hall"; "Candlestick"]);
                 ("p02", ["Mustard"; "Rope"; "Study"])] in
  let w0 := fresh_world "p01" 3 in
  let w2 :=
    (update (undirected_signal "p02" ["Mustard"; "Rope"; "Study"]
       (update (undirected_signal "p02" ["Plum"; "Hall"; "Candlestick"]
          w0)).2)).2 in
  signal_tokens events w0 = [("p02", 1); ("p02", 1)] ∧
  ¬ NoDup (signal_tokens events w0) ∧
  c2 <$> cell (_pad (self w2)) "p02" "Plum" = Some {[1]} ∧
  c2 <$> cell (_pad (self w2)) "p02" "Mustard" = Some {[1]}.
Proof.
  assert (H : signal_tokens
                [("p02", ["Plum"; "Hall"; "Candlestick"]);
                 ("p02", ["Mustard"; "Rope"; "Study"])]
                (fresh_world "p01" 3)
              = [("p02", 1); ("p02", 1)])
    by (vm_compute; reflexivity).
  cbv zeta. rewrite H. split; [reflexivity|]. split.
  - intros Hnd. apply NoDup_cons in Hnd as [Hnot _].
    apply Hnot. left.
  - split; vm_compute; reflexivity.
Qed.

(** A second signal over a card of the first gets the token 2. *)
Example second_signal_token :
  signal_tokens
    [("p02", ["Plum"; "Hall"; "Candlestick"]);
     ("p02", ["Plum"; "Rope"; "Study"])]
    (fresh_world "p01" 3)
  = [("p02", 1); ("p02", 2)].
Proof. vm_compute. reflexivity. Qed.

(** The token is new to the three cells when the tokens they hold lie in
    [1 .. n], for [n] the number of these tokens. *)
Lemma new_entry_fresh (cell01 cell02 cell03 : gset nat) :
  (∀ t, t ∈ cell01 ∪ (cell02 ∪ cell03) →
     t ≤ size (cell01 ∪ (cell02 ∪ cell03))) →
  new_entry cell01 cell02 cell03 ∉ cell01 ∪ (cell02 ∪ cell03).
Proof. intros H Hin. apply H in Hin. unfold new_entry in Hin. lia. Qed.

(** ** Construction *)

Lemma init_class_unchanged (player_id : string) (available : list string)
    (total_players : nat) (cls : ClassAttrs) (rng : list nat) :
  (__init__ player_id available total_players cls rng).1.2 = cls.
Proof.
  unfold __init__. destruct (bool_decide _); [|reflexivity].
  destruct (random_choice available rng) as [[e|x] rng']; reflexivity.
Qed.

Lemma init_within_limit (player_id : string) (available : list string)
    (total_players : nat) (cls : ClassAttrs) (rng : list nat) :
  (class_player_count cls ≤ 5)%Z →
  (__init__ player_id available total_players cls rng).1.1
  ≠ inl PlayerLimitExceeded.
Proof.
  intros H. unfold __init__. rewrite bool_decide_eq_true_2 by done.
  unfold random_choice.
  destruct (available !! _) as [x|]; simpl; [|discriminate].
  unfold _get_starting_location.
  destruct (starting_positions !! x); simpl; [|discriminate].
  unfold get_player_table.
  destruct (player_pad (Pad_new total_players) !! player_id); simpl;
    discriminate.
Qed.

(** No run of constructions that starts with the class attribute at 0 ever
    meets the limit, and it leaves the class attribute at 0. *)
(** A constructed player accepts the cards of its own table. *)
Lemma init_cards_on_pad (pid : string) (available : list string)
    (total_players : nat) (cls : ClassAttrs) (rng : list nat) (p : Player) :
  (__init__ pid available total_players cls rng).1.1 = inr p →
  player_id p = pid ∧ cards_on_pad p.
Proof.
  unfold __init__. destruct (bool_decide _); [|discriminate].
  destruct (random_choice available rng) as [[e|suspect] rng'];
    [discriminate|]. simpl.
  destruct (_get_starting_location suspect) as [e|location];
    [discriminate|]. simpl.
  unfold get_player_table.
  destruct (player_pad (Pad_new total_players) !! pid) as [tbl|] eqn:Ht;
    [|discriminate]. simpl.
  intros [= <-]. split; [reflexivity|].
  intros card Hin. unfold cell. cbn [_pad player_id _cards] in *.
  rewrite Ht. unfold table_cards in Hin.
  apply list_elem_of_fmap in Hin as ([k v] & -> & Hkv).
  apply elem_of_map_to_list in Hkv. simpl. eauto.
Qed.

Lemma construct_all_unlimited (requests : list (string * list string * nat))
    (rng : list nat) :
  (inl PlayerLimitExceeded ∉ (construct_all requests (mkClass 0) rng).1) ∧
  (construct_all requests (mkClass 0) rng).2 = mkClass 0.
Proof.
  revert rng. induction requests as [|[[pid avail] total] rest IH];
    intros rng; simpl.
  - split; [apply not_elem_of_nil | reflexivity].
  - pose proof (init_class_unchanged pid avail total (mkClass 0) rng) as Hc.
    pose proof (init_within_limit pid avail total (mkClass 0) rng) as Hl.
    destruct (__init__ pid avail total (mkClass 0) rng) as [[r cls] rng'].
    simpl in Hc, Hl. subst cls. specialize (IH rng').
    destruct (construct_all rest (mkClass 0) rng') as [rs cls'].
    simpl in *. destruct IH as [IH1 IH2]. split; [|exact IH2].
    intros [Heq|Hin]%elem_of_cons; [|done].
    apply Hl; [simpl; lia | done].
Qed.

(** C3, at six constructions in a row: all six succeed, the sixth included,
    although five instances exist when it starts; each instance holds a count
    of 1 of its own and the count of the class is still 0. *)
Theorem sixth_construction_succeeds :
  let run := construct_all six_requests (mkClass 0) [0; 1; 2; 3; 4; 5] in
  is_constructed <$> run.1 = [true; true; true; true; true; true] ∧
  (λ r, _player_count <$> ok r) <$> run.1
  = [Some 1; Some 1; Some 1; Some 1; Some 1; Some 1]%Z ∧
  run.2 = mkClass 0.
Proof. cbv zeta. split; [|split]; vm_compute; reflexivity. Qed.

(** ** Move selection *)

Section MoveProperties.
Variable neighborhood : string → nat → gset string.
Variable set_order : gset string → list string.
(** Python iterates over a set in some order, each element once. *)
Hypothesis set_order_perm : ∀ s, set_order s ≡ₚ elements s.

Lemma elem_of_set_order (s : gset string) (x : string) :
  x ∈ set_order s ↔ x ∈ s.
Proof. rewrite set_order_perm. apply elem_of_elements. Qed.

Lemma set_order_singleton (x : string) : set_order {[x]} = [x].
Proof.
  apply Permutation_singleton_r.
  rewrite set_order_perm, elements_singleton. reflexivity.
Qed.

Lemma length_set_order (s : gset string) : length (set_order s) = size s.
Proof. rewrite set_order_perm. reflexivity. Qed.

Lemma set_location_run (w : World) (positions : gmap string string)
    (location : string) :
  gs_positions (game_state w) = Some positions →
  positions !! player_id (self w) = Some location →
  _set_location w = (inr (), located location w).
Proof.
  intros Hp Hl. unfold _set_location. rewrite bind_run. simpl.
  rewrite bind_run. simpl. rewrite bind_run. unfold lift at 1.
  rewrite Hp. simpl. rewrite bind_run. unfold lift. rewrite Hl.
  reflexivity.
Qed.

Lemma filter_moves_run (w : World) (positions : gmap string string)
    (location : string) :
  gs_positions (game_state w) = Some positions →
  positions !! player_id (self w) = Some location →
  let possible := neighborhood location 1 ∖ map_img positions in
  let candidates := possible ∖ ({[location]} ∪ _prior_moves (self w)) in
  (candidates ≠ ∅ ∧
   _filter_moves neighborhood set_order w
   = (inr candidates, located location w))
  ∨ (candidates = ∅ ∧ possible = ∅ ∧
     _filter_moves neighborhood set_order w = (inr ∅, located location w))
  ∨ (candidates = ∅ ∧ ∃ pick,
       set_order possible
         !! draw_index (rng w) (length (set_order possible)) = Some pick ∧
       pick ∈ possible ∧
       _filter_moves neighborhood set_order w
       = (inr {[pick]}, drawn (located location w))).
Proof.
  intros Hp Hl possible candidates. unfold _filter_moves.
  rewrite bind_run, (set_location_run _ _ _ Hp Hl).
  rewrite bind_run. simpl. rewrite bind_run. simpl.
  rewrite bind_run. unfold lift at 1. rewrite Hp. simpl.
  unfold _next_moves. fold possible. fold candidates.
  destruct (decide (candidates = ∅)) as [Hc|Hc].
  - rewrite (bool_decide_eq_true_2 _ Hc). right.
    destruct (decide (0 < size possible)) as [Hs|Hs].
    + rewrite (bool_decide_eq_true_2 _ Hs). right. split; [done|].
      rewrite bind_run. unfold random_sample1 at 1. simpl.
      destruct (lookup_lt_is_Some_2 (set_order possible)
                  (draw_index (rng w) (length (set_order possible))))
        as [pick Hpick].
      { unfold draw_index. apply Nat.mod_upper_bound.
        rewrite length_set_order. lia. }
      exists pick. rewrite Hpick. split; [done|]. split.
      * apply elem_of_set_order, list_elem_of_lookup. eauto.
      * unfold mret, M_ret, drawn, located. simpl.
        rewrite Hc, (right_id_L ∅ (∪)). reflexivity.
    + rewrite (bool_decide_eq_false_2 _ Hs). left. split; [done|].
      split; [|by rewrite Hc].
      assert (size possible = 0) as Hs' by lia.
      apply size_empty_inv in Hs'. by apply leibniz_equiv.
  - rewrite (bool_decide_eq_false_2 _ Hc). left. done.
Qed.

Lemma make_move_run (available_moves : gset string) (w : World) :
  (available_moves = ∅ ∧
   _make_move set_order available_moves w = (inr "", w))
  ∨ (∃ move, head (set_order available_moves) = Some move ∧
       move ∈ available_moves ∧
       _make_move set_order available_moves w
       = (inr move,
          if bool_decide (move ∉ _prior_moves (self w)) then moved move w
          else w)).
Proof.
  unfold _make_move.
  destruct (set_order available_moves) as [|move rest] eqn:Ho.
  - left. split; [|reflexivity].
    apply leibniz_equiv, elements_empty_inv.
    symmetry. apply Permutation_nil_l.
    by rewrite <- Ho, set_order_perm.
  - right. exists move. split; [reflexivity|]. split.
    + apply elem_of_set_order. rewrite Ho. left.
    + rewrite bind_run. simpl.
      destruct (bool_decide (move ∉ _prior_moves (self w)));
        reflexivity.
Qed.

(** The three ways a turn ends. *)
Lemma take_turn_run (w : World) (positions : gmap string string)
    (location : string) :
  gs_positions (game_state w) = Some positions →
  positions !! player_id (self w) = Some location →
  let possible := neighborhood location 1 ∖ map_img positions in
  let candidates := possible ∖ ({[location]} ∪ _prior_moves (self w)) in
  ∃ move w', take_turn neighborhood set_order w = (inr move, w') ∧
    ((candidates ≠ ∅ ∧ head (set_order candidates) = Some move ∧
      move ∈ candidates)
     ∨ (candidates = ∅ ∧ possible = ∅ ∧ move = "")
     ∨ (candidates = ∅ ∧ move ∈ possible ∧
        set_order possible
          !! draw_index (rng w) (length (set_order possible))
        = Some move)).
Proof.
  intros Hp Hl. cbv zeta. unfold take_turn.
  pose proof (filter_moves_run w positions location Hp Hl) as H.
  cbv zeta in H.
  set (possible := neighborhood location 1 ∖ map_img positions) in *.
  set (candidates := possible ∖ _) in *.
  destruct H
    as [[Hc Hrun]|[(Hc & Hposs & Hrun)|(Hc & pick & Hpick & Hin & Hrun)]];
    rewrite bind_run, Hrun.
  - destruct (make_move_run candidates (located location w))
      as [[He _]|(move & Hhead & Hm & Hmove)]; [done|].
    rewrite Hmove. eexists _, _. split; [reflexivity|].
    left. done.
  - destruct (make_move_run ∅ (located location w))
      as [[_ Hmove]|(move & _ & Hm & _)]; [|set_solver].
    rewrite Hmove. eexists _, _. split; [reflexivity|].
    right. left. done.
  - destruct (make_move_run {[pick]} (drawn (located location w)))
      as [[He _]|(move & Hhead & Hm & Hmove)]; [set_solver|].
    rewrite Hmove. eexists _, _. split; [reflexivity|].
    right. right. apply elem_of_singleton in Hm as ->. done.
Qed.
Lemma own_location_occupied (w : World) (positions : gmap string string)
    (location : string) :
  positions !! player_id (self w) = Some location →
  location ∈ (map_img positions : gset string).
Proof. intros H. apply elem_of_map_img. eauto. Qed.

(** Every element of a set is at exactly one index of its iteration. *)
Lemma set_order_index (s : gset string) (x : string) :
  x ∈ s →
  ∃ k, k < size s ∧
    ∀ j, set_order s !! j = Some x ↔ j = k.
Proof.
  intros Hx. apply elem_of_set_order, list_elem_of_lookup in Hx as [k Hk].
  exists k. split.
  - rewrite <- length_set_order. eapply lookup_lt_Some, Hk.
  - intros j. split; [|by intros ->].
    intros Hj. eapply NoDup_lookup; [|exact Hj|exact Hk].
    rewrite set_order_perm. apply NoDup_elements.
Qed.

(** C8: the move of a turn is never an occupied location: when the current
    location has an unoccupied neighbour, the move is one of the unoccupied
    neighbours; when it has none, the move field is empty. *)
Theorem take_turn_avoids_occupied (w : World)
    (positions : gmap string string) (location : string) :
  gs_positions (game_state w) = Some positions →
  positions !! player_id (self w) = Some location →
  ∃ move w', take_turn neighborhood set_order w = (inr move, w') ∧
    unoccupied_move (neighborhood location 1) (map_img positions) move.
Proof.
  intros Hp Hl. set (occupied := map_img positions : gset string).
  unfold unoccupied_move.
  destruct (take_turn_run w positions location Hp Hl)
    as (move & w' & Hrun & Hcases).
  exists move, w'. split; [exact Hrun|]. fold occupied in Hcases.
  destruct Hcases as [(_ & _ & Hm)|[(_ & He & ->)|(_ & Hm & _)]].
  - split; [intros _; set_solver | intros Hocc; set_solver].
  - split; [intros (n & ? & ?); set_solver | done].
  - split; [intros _; set_solver | intros Hocc; set_solver].
Qed.

(** C9: when an unoccupied neighbour has not been visited, the move is an
    unoccupied neighbour that has not been visited; when there are
    unoccupied neighbours and all have been visited, the move is the one
    that the draw of the random source selects among them, each of them
    being selected by exactly one of the equally likely draws; the move
    field is empty when there is no unoccupied neighbour, and then only. *)
Theorem take_turn_prefers_unvisited (w : World)
    (positions : gmap string string) (location : string) :
  gs_positions (game_state w) = Some positions →
  positions !! player_id (self w) = Some location →
  ∃ move w', take_turn neighborhood set_order w = (inr move, w') ∧
    preferred_move set_order (neighborhood location 1)
      (neighborhood location 1 ∖ map_img positions)
      (_prior_moves (self w)) (hd 0 (rng w)) move.
Proof.
  intros Hp Hl. set (visited := _prior_moves (self w)).
  set (possible := neighborhood location 1 ∖ map_img positions).
  unfold preferred_move.
  pose proof (own_location_occupied w positions location Hl) as Hown.
  destruct (take_turn_run w positions location Hp Hl)
    as (move & w' & Hrun & Hcases).
  exists move, w'. split; [exact Hrun|].
  fold possible visited in Hcases.
  split; [|split; [|split; [|split]]].
  - intros (n & Hn & Hv).
    destruct Hcases as [(_ & _ & Hm)|[(_ & He & _)|(Hc & _)]];
      [set_solver..|].
    exfalso. apply (not_elem_of_empty (C := gset string) n).
    rewrite <- Hc. unfold possible in Hn. set_solver.
  - intros Hne Hall.
    destruct Hcases as [(Hc & _ & Hm)|[(_ & He & _)|(_ & Hm & Hpick)]].
    + exfalso. apply Hc. apply leibniz_equiv. set_solver.
    + done.
    + split; [done|]. rewrite <- length_set_order. exact Hpick.
  - intros n Hn. apply set_order_index, Hn.
  - intros He.
    destruct Hcases as [(Hc & _ & Hm)|[(_ & _ & ->)|(_ & Hm & _)]];
      [set_solver | done | set_solver].
  - intros Hname ->.
    destruct Hcases as [(_ & _ & Hm)|[(_ & He & _)|(_ & Hm & _)]];
      [set_solver | done | set_solver].
Qed.
End MoveProperties.

(** ** The properties at concrete games *)

Lemma all_by_check {A} (P : A → Prop) `{∀ x, Decision (P x)} (l : list A) :
  forallb (λ x, bool_decide (P x)) l = true → ∀ x, x ∈ l → P x.
Proof.
  intros Hall x Hx. apply list_elem_of_In in Hx.
  rewrite forallb_forall in Hall.
  apply (bool_decide_eq_true_1 (P x)), Hall, Hx.
Qed.

Example take_turn_hallway :
  (take_turn hallway_board elements turn_request).1 = inr "Dining".
Proof. vm_compute. reflexivity. Qed.

(** Asked again from the same hallway, the player falls back on the Dining
    room, which it has visited by then. *)
Example take_turn_fallback :
  let again := (take_turn hallway_board elements turn_request).2 in
  "Dining" ∈ _prior_moves (self again) ∧
  (take_turn hallway_board elements again).1 = inr "Dining".
Proof. cbv zeta. split; [|vm_compute; reflexivity]. vm_compute. set_solver. Qed.

(** With both rooms occupied the move field is empty. *)
Example take_turn_blocked :
  (take_turn hallway_board elements blocked_request).1 = inr "".
Proof. vm_compute. reflexivity. Qed.

Example receive_cards_unrecognized :
  receive_cards ["Mustard"; "Rope"; "Spanner"] (fresh_world "p01" 3)
  = (inl (UnrecognizedCard "Spanner"), fresh_world "p01" 3).
Proof. vm_compute. reflexivity. Qed.

(** A hand of seven cards is refused, and nothing changes. *)
Lemma receive_cards_rejects_witness :
  ¬ (3 ≤ length seven_cards ≤ 6) ∧
  receive_cards seven_cards (fresh_world "p01" 3)
  = (inl InvalidHandSize, fresh_world "p01" 3).
Proof.
  assert (Hlen : ¬ (3 ≤ length seven_cards ≤ 6)) by (simpl; lia).
  split; [exact Hlen|].
  destruct (receive_cards_rejects seven_cards (fresh_world "p01" 3)
              (or_introl Hlen)) as (e & Hrun & Hsize & _).
  rewrite Hrun, (Hsize Hlen). reflexivity.
Defined.

(** Mustard, the Rope and the Study are dealt to a new player. *)
Lemma receive_cards_marks_hand_witness :
  ∃ pad',
    receive_cards ["Mustard"; "Rope"; "Study"] (fresh_world "p01" 3)
    = (inr (), with_pad pad' (fresh_world "p01" 3)) ∧
    hand_marked "p01" ["Mustard"; "Rope"; "Study"] (Pad_new 3) pad'.
Proof.
  apply (receive_cards_marks_hand ["Mustard"; "Rope"; "Study"]
           (fresh_world "p01" 3)).
  - simpl. lia.
  - refine (all_by_check (λ card, card ∈ table_cards blank_table) _ _).
    vm_compute. reflexivity.
  - refine (all_by_check (λ card, is_Some (cell (Pad_new 3) "p01" card))
              (table_cards blank_table) _).
    vm_compute. reflexivity.
Defined.

(** The player that holds the Rope is asked for Mustard, the Rope or the
    Study. *)
Lemma update_answers_first_marked_witness :
  ∃ reply, update question = (inr (RCard reply), question) ∧
    first_confirmed question ["Mustard"; "Rope"; "Study"] reply.
Proof.
  apply (update_answers_first_marked question
           (mkSuggestion (Some "p01") (Some ["Mustard"; "Rope"; "Study"]))).
  - reflexivity.
  - reflexivity.
  - reflexivity.
  - refine (bool_decide_unpack
              (is_Some (player_pad (_pad (self question)) !! "p01")) _).
    vm_compute. exact I.
Defined.


(** The second player signals one of Plum, the Hall and the Candlestick. *)
Lemma update_undirected_signal_witness :
  let w := undirected_signal "p02" ["Plum"; "Hall"; "Candlestick"]
             (fresh_world "p01" 3) in
  ∃ pad' h', (update w).2 = with_heap h' (with_pad pad' w) ∧
    signalled "p02" ["Candlestick"; "Hall"; "Plum"]
      (size (∅ ∪ ∅ ∪ ∅ : gset nat) + 1) (Pad_new 3) pad'.
Proof.
  apply (update_undirected_signal
           (undirected_signal "p02" ["Plum"; "Hall"; "Candlestick"]
              (fresh_world "p01" 3))
           (mkAnswer (Some "p02") (Some true) None) "p02"
           (fresh (dom (∅ : gmap nat (list string)))) []
           "Candlestick" "Hall" "Plum" (Row 0 ∅) (Row 0 ∅) (Row 0 ∅)).
  - reflexivity.
  - reflexivity.
  - reflexivity.
  - reflexivity.
  - reflexivity.
  - vm_compute. reflexivity.
  - vm_compute. reflexivity.
  - vm_compute. reflexivity.
  - vm_compute. reflexivity.
Defined.

(** A turn in the hallway between the Lounge, which is occupied, and the
    Dining room. *)
Lemma take_turn_avoids_occupied_witness :
  ∃ move w', take_turn hallway_board elements turn_request = (inr move, w') ∧
    unoccupied_move (hallway_board "Hallway_03" 1) (map_img turn_positions)
      move.
Proof.
  apply (take_turn_avoids_occupied hallway_board elements
           (λ s, reflexivity (elements s)) turn_request turn_positions
           "Hallway_03").
  - reflexivity.
  - vm_compute. reflexivity.
Defined.

(** The same turn: the Dining room has not been visited. *)
Lemma take_turn_prefers_unvisited_witness :
  ∃ move w', take_turn hallway_board elements turn_request = (inr move, w') ∧
    preferred_move elements (hallway_board "Hallway_03" 1)
      (hallway_board "Hallway_03" 1 ∖ map_img turn_positions)
      {["Hallway_03"]} 0 move.
Proof.
  apply (take_turn_prefers_unvisited hallway_board elements
           (λ s, reflexivity (elements s)) turn_request turn_positions
           "Hallway_03").
  - reflexivity.
  - vm_compute. reflexivity.
Defined.
